(** * TSDoc node model: TextRange, DocPlainText, DocParamCollection, DocMemberSymbol

    A shallow embedding of [src/tsdoc/src/nodes/DocMemberSymbol.ts] (which also
    holds [TextRange]), [DocPlainText.ts] and [DocParamCollection.ts] (which
    also holds [DocInlineTag]), and of the parts of the playground's
    [DocHtmlView.tsx] that read them.

    Modelling choices:
    - a JavaScript string is a list of characters ([list ascii]);
    - a JavaScript [number] used as an index is an integer ([Z]);
    - a thrown [Error] is the [Throw] constructor of [result], carrying the
      message of the source. *)

From Stdlib Require Import ZArith Lia Ascii List Bool.
From stdpp Require Import base gmap strings.
Import ListNotations.

Open Scope Z_scope.

Abbreviation js_string := (list ascii).

(** Outcome of code that may throw. *)
Inductive result (A : Type) : Type :=
| Ok (a : A)
| Throw (message : string).
Arguments Ok {A} a.
Arguments Throw {A} message.

Definition is_ok {A} (r : result A) : bool :=
  match r with Ok _ => true | Throw _ => false end.

Definition char_LF : ascii := Ascii.ascii_of_nat 10.
Definition char_CR : ascii := Ascii.ascii_of_nat 13.
Definition char_TAB : ascii := Ascii.ascii_of_nat 9.

Definition js_length (s : js_string) : Z := Z.of_nat (List.length s).

(** [String.prototype.substring(a, b)]: both arguments are clamped to
    [0, length], then swapped when [a > b]. *)
Definition js_substring (s : js_string) (a b : Z) : js_string :=
  let len := js_length s in
  let a' := Z.min (Z.max a 0) len in
  let b' := Z.min (Z.max b 0) len in
  let start := Z.min a' b' in
  let finish := Z.max a' b' in
  firstn (Z.to_nat (finish - start)) (skipn (Z.to_nat start) s).

(** [s[i]]: [undefined] (here [None]) out of range. *)
Definition js_char_at (s : js_string) (i : Z) : option ascii :=
  if i <? 0 then None else nth_error s (Z.to_nat i).

Module TextRange.

Record TextRange : Type := mkTextRange {
  buffer : js_string;
  pos : Z;
  end_ : Z
}.

(** [ITextLocation] *)
Record ITextLocation : Type := mkLocation {
  line : Z;
  column : Z
}.

(** [_validateBounds]: the checks in the source order. *)
Definition _validateBounds (r : TextRange) : result unit :=
  if pos r <? 0 then Throw "TextRange.pos cannot be negative"
  else if end_ r <? 0 then Throw "TextRange.end cannot be negative"
  else if end_ r <? pos r then Throw "TextRange.end cannot be smaller than TextRange.pos"
  else if js_length (buffer r) <? pos r
    then Throw "TextRange.pos cannot exceed the associated text buffer length"
  else if js_length (buffer r) <? end_ r
    then Throw "TextRange.end cannot exceed the associated text buffer length"
  else Ok tt.

(** The private constructor: assign the fields, then validate. *)
Definition construct (buf : js_string) (p e : Z) : result TextRange :=
  let r := mkTextRange buf p e in
  match _validateBounds r with
  | Ok _ => Ok r
  | Throw m => Throw m
  end.

Definition fromString (buf : js_string) : result TextRange :=
  construct buf 0 (js_length buf).

Definition fromStringRange (buf : js_string) (p e : Z) : result TextRange :=
  construct buf p e.

Definition length (r : TextRange) : Z := end_ r - pos r.

Definition getNewRange (r : TextRange) (p e : Z) : result TextRange :=
  construct (buffer r) p e.

Definition isEmpty (r : TextRange) : bool := pos r =? end_ r.

Definition toString (r : TextRange) : js_string :=
  js_substring (buffer r) (pos r) (end_ r).

Definition getDebugDump (r : TextRange) (posDelimiter endDelimiter : js_string)
    : js_string :=
  js_substring (buffer r) 0 (pos r) ++ posDelimiter ++
  js_substring (buffer r) (pos r) (end_ r) ++ endDelimiter ++
  js_substring (buffer r) (end_ r) (js_length (buffer r)).

(** The body of the [while (currentIndex < index)] loop of [getLocation];
    [fuel] is the number of iterations left, [index - currentIndex]. *)
Fixpoint getLocation_loop (buf : js_string) (fuel : nat) (currentIndex : Z)
    (line column : Z) : ITextLocation :=
  match fuel with
  | O => mkLocation line column
  | S fuel' =>
      let current := js_char_at buf currentIndex in
      let currentIndex' := currentIndex + 1 in
      if decide (current = Some char_CR) then
        getLocation_loop buf fuel' currentIndex' line column
      else if decide (current = Some char_LF) then
        getLocation_loop buf fuel' currentIndex' (line + 1) 1
      else
        getLocation_loop buf fuel' currentIndex' line (column + 1)
  end.

Definition getLocation (r : TextRange) (index : Z) : ITextLocation :=
  if (index <? 0) || (js_length (buffer r) <? index) then mkLocation 0 0
  else getLocation_loop (buffer r) (Z.to_nat index) 0 1 1.

(** Reference characterisation of a location, from the prefix of the
    buffer before the index: the number of line feeds, and the text after
    the last line feed. *)
Definition count_LF (s : js_string) : nat :=
  List.length (List.filter (fun x => bool_decide (x = char_LF)) s).

Definition count_non_CR (s : js_string) : nat :=
  List.length (List.filter (fun x => negb (bool_decide (x = char_CR))) s).

Fixpoint take_until_LF (s : js_string) : js_string :=
  match s with
  | [] => []
  | x :: s' => if bool_decide (x = char_LF) then [] else x :: take_until_LF s'
  end.

Definition last_line (s : js_string) : js_string :=
  rev (take_until_LF (rev s)).

(** The bounds a successfully constructed range satisfies. *)
Definition valid (r : TextRange) : Prop :=
  0 <= pos r /\ pos r <= end_ r /\ end_ r <= js_length (buffer r).

(** [TextRange.empty = new TextRange('', 0, 0)] *)
Definition empty : result TextRange := construct [] 0 0.

(** The exact slice [buffer[pos..end)]. *)
Definition slice (buf : js_string) (p e : Z) : js_string :=
  firstn (Z.to_nat (e - p)) (skipn (Z.to_nat p) buf).

End TextRange.

Module Nodes.

Set Implicit Arguments.

Section NodeModel.

(** [TokenSequence] (src/tsdoc/src/parser/TokenSequence.ts) with its
    [toString()], and the node type [DocDeclarationReference], are used
    through their interfaces only. *)
Variable TokenSequence : Type.
Variable TokenSequence_toString : TokenSequence -> js_string.
Variable DocDeclarationReference : Type.

(** Modelled from the spec: [DocExcerpt] (DocExcerpt.ts, missing from
    src/), an excerpt associating a semantic role ([excerptKind]) with the
    token sequence that backs it ([content]). *)
Inductive ExcerptKind : Type :=
| EK_PlainText
| EK_Spacing
| EK_DocMemberSymbol_LeftBracket
| EK_DocMemberSymbol_RightBracket
| EK_InlineTag_TagContent.

Record DocExcerpt : Type := mkDocExcerpt {
  excerptKind : ExcerptKind;
  content : TokenSequence
}.

(** The node kinds that appear as children of the nodes embedded here. *)
Inductive DocNode : Type :=
| NodeExcerpt (e : DocExcerpt)
| NodeDeclarationReference (d : DocDeclarationReference).

(** Modelled from the spec: [DocNode.getChildNodes] (DocNode.ts, missing
    from src/): generic walkers see the ordered child sequence produced by
    [onGetChildNodes], holes for absent optional children included. *)
Definition getChildNodes (onGetChildNodes : list (option DocNode))
    : list (option DocNode) :=
  onGetChildNodes.

(** ** DocPlainText *)

(** [IDocPlainTextParameters | IDocPlainTextParsedParameters], told apart
    by [DocNode.isParsedParameters]. *)
Inductive DocPlainTextParameters : Type :=
| PlainTextLiteral (text : js_string)
| PlainTextParsed (textExcerpt : TokenSequence).

Record DocPlainText : Type := mkDocPlainText {
  _text : option js_string;
  _textExcerpt : option DocExcerpt
}.

(** [/[\n]/.test(s)] *)
Definition _newlineCharacterRegExp_test (s : js_string) : bool :=
  existsb (fun c => bool_decide (c = char_LF)) s.

Definition DocPlainText_new (parameters : DocPlainTextParameters)
    : result DocPlainText :=
  match parameters with
  | PlainTextParsed ts =>
      Ok (mkDocPlainText None (Some (mkDocExcerpt EK_PlainText ts)))
  | PlainTextLiteral t =>
      if _newlineCharacterRegExp_test t
      then Throw "The DocPlainText content must not contain newline characters"
      else Ok (mkDocPlainText (Some t) None)
  end.

(** The [text] getter: fills the lazy cache [_text] on first access.
    [this._textExcerpt!.content] on an absent excerpt is a [TypeError]. *)
Definition DocPlainText_text (n : DocPlainText)
    : result (js_string * DocPlainText) :=
  match _text n with
  | Some t => Ok (t, n)
  | None =>
      match _textExcerpt n with
      | Some e =>
          let t := TokenSequence_toString (content e) in
          Ok (t, mkDocPlainText (Some t) (_textExcerpt n))
      | None => Throw "TypeError: Cannot read properties of undefined"
      end
  end.

Definition DocPlainText_textExcerpt (n : DocPlainText) : option TokenSequence :=
  match _textExcerpt n with
  | Some e => Some (content e)
  | None => None
  end.

Definition DocPlainText_onGetChildNodes (n : DocPlainText)
    : list (option DocNode) :=
  [option_map NodeExcerpt (_textExcerpt n)].

(** ** DocMemberSymbol *)

Inductive DocMemberSymbolParameters : Type :=
| MemberSymbolLiteral (symbolReference : DocDeclarationReference)
| MemberSymbolParsed (leftBracketExcerpt : TokenSequence)
    (spacingAfterLeftBracketExcerpt : option TokenSequence)
    (symbolReference : DocDeclarationReference)
    (rightBracketExcerpt : TokenSequence).

Record DocMemberSymbol : Type := mkDocMemberSymbol {
  _leftBracketExcerpt : option DocExcerpt;
  _spacingAfterLeftBracketExcerpt : option DocExcerpt;
  _symbolReference : DocDeclarationReference;
  _rightBracketExcerpt : option DocExcerpt
}.

Definition DocMemberSymbol_new (parameters : DocMemberSymbolParameters)
    : DocMemberSymbol :=
  match parameters with
  | MemberSymbolParsed l sp s r =>
      mkDocMemberSymbol
        (Some (mkDocExcerpt EK_DocMemberSymbol_LeftBracket l))
        (match sp with
         | Some ts => Some (mkDocExcerpt EK_Spacing ts)
         | None => None
         end)
        s
        (Some (mkDocExcerpt EK_DocMemberSymbol_RightBracket r))
  | MemberSymbolLiteral s => mkDocMemberSymbol None None s None
  end.

Definition DocMemberSymbol_symbolReference (n : DocMemberSymbol)
    : DocDeclarationReference :=
  _symbolReference n.

Definition DocMemberSymbol_onGetChildNodes (n : DocMemberSymbol)
    : list (option DocNode) :=
  [option_map NodeExcerpt (_leftBracketExcerpt n);
   option_map NodeExcerpt (_spacingAfterLeftBracketExcerpt n);
   Some (NodeDeclarationReference (_symbolReference n));
   option_map NodeExcerpt (_rightBracketExcerpt n)].

(** ** DocInlineTag (the fields of its own; [DocInlineTagBase] is not
    embedded) *)

Inductive DocInlineTagParameters : Type :=
| InlineTagLiteral (tagContent : js_string)
| InlineTagParsed (tagContentExcerpt : option TokenSequence).

Record DocInlineTag : Type := mkDocInlineTag {
  _tagContent : option js_string;
  _tagContentExcerpt : option DocExcerpt
}.

Definition DocInlineTag_new (parameters : DocInlineTagParameters) : DocInlineTag :=
  match parameters with
  | InlineTagParsed o =>
      mkDocInlineTag None
        (match o with
         | Some ts => Some (mkDocExcerpt EK_InlineTag_TagContent ts)
         | None => None
         end)
  | InlineTagLiteral t => mkDocInlineTag (Some t) None
  end.

(** The [tagContent] getter: caches the excerpt's text when there is an
    excerpt, and returns [''] without caching when there is none. *)
Definition DocInlineTag_tagContent (n : DocInlineTag) : js_string * DocInlineTag :=
  match _tagContent n with
  | Some t => (t, n)
  | None =>
      match _tagContentExcerpt n with
      | Some e =>
          let t := TokenSequence_toString (content e) in
          (t, mkDocInlineTag (Some t) (_tagContentExcerpt n))
      | None => ([], n)
      end
  end.

Definition DocInlineTag_getChildNodesForContent (n : DocInlineTag)
    : list (option DocNode) :=
  [option_map NodeExcerpt (_tagContentExcerpt n)].

End NodeModel.

Arguments NodeExcerpt {TokenSequence DocDeclarationReference} e.
Arguments NodeDeclarationReference {TokenSequence DocDeclarationReference} d.
Arguments PlainTextLiteral {TokenSequence} text.
Arguments MemberSymbolLiteral {TokenSequence DocDeclarationReference} symbolReference.
Arguments InlineTagLiteral {TokenSequence} tagContent.

End Nodes.

Module ParamCollection.

Set Implicit Arguments.

Section CollectionModel.

(** [DocParamBlock] is used through its [parameterName] getter only. *)
Variable DocParamBlock : Type.
Variable parameterName : DocParamBlock -> js_string.

Record DocParamCollection : Type := mkDocParamCollection {
  _blocks : list DocParamBlock;
  _blocksByName : option (gmap js_string DocParamBlock)
}.

Definition new : DocParamCollection := mkDocParamCollection [] None.

Definition blocks (c : DocParamCollection) : list DocParamBlock := _blocks c.

(** [[Symbol.iterator]()]: iterates [_blocks]. *)
Definition iterate (c : DocParamCollection) : list DocParamBlock := _blocks c.

Definition count (c : DocParamCollection) : nat := List.length (_blocks c).

Definition add (c : DocParamCollection) (docParamBlock : DocParamBlock)
    : DocParamCollection :=
  let blocks' := _blocks c ++ [docParamBlock] in
  let m := match _blocksByName c with
           | None => ∅
           | Some m => m
           end in
  let k := parameterName docParamBlock in
  let m' := match m !! k with
            | Some _ => m
            | None => <[k := docParamBlock]> m
            end in
  mkDocParamCollection blocks' (Some m').

Definition clear (c : DocParamCollection) : DocParamCollection :=
  mkDocParamCollection [] None.

Definition tryGetBlockByName (c : DocParamCollection) (name : js_string)
    : option DocParamBlock :=
  match _blocksByName c with
  | Some m => m !! name
  | None => None
  end.

(** The name index as [add] sees it: a missing map is an empty one. *)
Definition index_of (c : DocParamCollection) : gmap js_string DocParamBlock :=
  match _blocksByName c with None => ∅ | Some m => m end.

(** A sequence of [add] calls, in order. *)
Definition add_all (c : DocParamCollection) (bs : list DocParamBlock)
    : DocParamCollection :=
  fold_left add bs c.

End CollectionModel.

Arguments new {DocParamBlock}.

End ParamCollection.

(** The [_blocks] array of a [DocParamCollection] as a shared object: the
    [blocks] getter hands out the array itself, [add] pushes onto it and
    [clear] truncates it in place ([this._blocks.length = 0]). Arrays live in
    a store indexed by their address. *)
Module ParamCollectionStore.

Set Implicit Arguments.

Section StoreModel.

Variable DocParamBlock : Type.
Variable parameterName : DocParamBlock -> js_string.

Abbreviation store := (gmap nat (list DocParamBlock)).

Record DocParamCollection : Type := mkDocParamCollection {
  _blocks : nat;
  _blocksByName : option (gmap js_string DocParamBlock)
}.

(** [new DocParamCollection()]: a fresh array for [_blocks]. *)
Definition new (st : store) : store * DocParamCollection :=
  let a := fresh (dom st) in
  (<[a := []]> st, mkDocParamCollection a None).

(** The [blocks] getter: the array reference. *)
Definition blocks (c : DocParamCollection) : nat := _blocks c.

Definition read (st : store) (a : nat) : list DocParamBlock :=
  match st !! a with Some xs => xs | None => [] end.

Definition add (st : store) (c : DocParamCollection) (docParamBlock : DocParamBlock)
    : store * DocParamCollection :=
  let st' := <[_blocks c := read st (_blocks c) ++ [docParamBlock]]> st in
  let m := match _blocksByName c with None => ∅ | Some m => m end in
  let k := parameterName docParamBlock in
  let m' := match m !! k with
            | Some _ => m
            | None => <[k := docParamBlock]> m
            end in
  (st', mkDocParamCollection (_blocks c) (Some m')).

Definition clear (st : store) (c : DocParamCollection) : store * DocParamCollection :=
  (<[_blocks c := []]> st, mkDocParamCollection (_blocks c) None).

Definition tryGetBlockByName (c : DocParamCollection) (name : js_string)
    : option DocParamBlock :=
  match _blocksByName c with
  | Some m => m !! name
  | None => None
  end.

Fixpoint add_all (st : store) (c : DocParamCollection) (bs : list DocParamBlock)
    : store * DocParamCollection :=
  match bs with
  | [] => (st, c)
  | b :: bs' => let '(st', c') := add st c b in add_all st' c' bs'
  end.

End StoreModel.

End ParamCollectionStore.

(** ** The playground's [DocHtmlView] (src/playground/src/DocHtmlView.tsx):
    the text it renders for a link, the example headings and the parameter
    rows. *)
Module HtmlView.

(** JavaScript [a || b] on [string | undefined]: [a] when it is a non-empty
    string. *)
Definition js_or (a : option js_string) (b : js_string) : js_string :=
  match a with
  | Some ((_ :: _) as s) => s
  | _ => b
  end.

Definition js_truthy (a : option js_string) : bool :=
  match a with Some (_ :: _) => true | _ => false end.

(** The [DocLinkTag] fields the view reads: [codeDestination] is given by
    its [memberReferences], each with the [identifier] of its optional
    [memberIdentifier]. *)
Record LinkTagView : Type := mkLinkTagView {
  linkText : option js_string;
  urlDestination : option js_string;
  codeDestination : option (list (option js_string))
}.

Definition question_marks : js_string := ["?"%char; "?"%char; "?"%char].

(** The text of the [<a>] element [_renderDocNode] builds for a [LinkTag]. *)
Definition renderLinkText (t : LinkTagView) : js_string :=
  if js_truthy (urlDestination t) then
    js_or (linkText t) (match urlDestination t with Some u => u | None => [] end)
  else
    let identifier :=
      match codeDestination t with
      | Some memberReferences =>
          if (0 <? List.length memberReferences)%nat then
            match nth_error memberReferences (List.length memberReferences - 1) with
            | Some (Some id) => id
            | _ => []
            end
          else []
      | None => []
      end in
    js_or (linkText t) (js_or (Some identifier) question_marks).

(** [`${n}`] for a natural number. *)
Fixpoint decimal_aux (fuel n : nat) (acc : js_string) : js_string :=
  match fuel with
  | O => acc
  | S fuel' =>
      let acc' := Ascii.ascii_of_nat (48 + n mod 10) :: acc in
      if (n <? 10)%nat then acc' else decimal_aux fuel' (n / 10) acc'
  end.

Definition js_nat_to_string (n : nat) : js_string := decimal_aux (S n) n [].

Definition example_word : js_string :=
  ["E"%char; "x"%char; "a"%char; "m"%char; "p"%char; "l"%char; "e"%char].

(** The [for (const exampleBlock of exampleBlocks)] loop: the headings it
    emits, with [exampleNumber] counting from its current value. *)
Fixpoint exampleHeadings_loop (total : nat) (remaining : nat) (exampleNumber : nat)
    : list js_string :=
  match remaining with
  | O => []
  | S remaining' =>
      let heading :=
        if (1 <? total)%nat
        then example_word ++ [" "%char] ++ js_nat_to_string exampleNumber
        else example_word in
      heading :: exampleHeadings_loop total remaining' (S exampleNumber)
  end.

Definition exampleHeadings (exampleBlocks : nat) : list js_string :=
  exampleHeadings_loop exampleBlocks exampleBlocks 1.

Section ParamRows.

Variable DocParamBlock : Type.
Variable parameterName : DocParamBlock -> js_string.
Variable Container : Type.
Variable paramContent : DocParamBlock -> Container.

(** The "Parameters" table: present when [docComment.params.count > 0],
    one row [(parameterName, content)] pushed per block of
    [docComment.params.blocks]. *)
Definition renderParamRows (params : ParamCollection.DocParamCollection DocParamBlock)
    : option (list (js_string * Container)) :=
  if (0 <? ParamCollection.count params)%nat then
    Some (fold_left (fun rows b => rows ++ [(parameterName b, paramContent b)])
            (ParamCollection.blocks params) [])
  else None.

End ParamRows.

End HtmlView.

(** * Proofs *)

Module TextRangeFacts.
Import TextRange.

Lemma validateBounds_ok (buf : js_string) (p e : Z) :
  _validateBounds (mkTextRange buf p e) = Ok tt <->
  0 <= p /\ p <= e /\ e <= js_length buf.
Proof.
  unfold _validateBounds; simpl.
  destruct (p <? 0) eqn:H1; [split; [discriminate | lia] |].
  destruct (e <? 0) eqn:H2; [split; [discriminate | lia] |].
  destruct (e <? p) eqn:H3; [split; [discriminate | lia] |].
  destruct (js_length buf <? p) eqn:H4; [split; [discriminate | lia] |].
  destruct (js_length buf <? e) eqn:H5; [split; [discriminate | lia] |].
  split; [lia | reflexivity].
Qed.

Lemma validateBounds_cases (r : TextRange) :
  _validateBounds r = Ok tt \/ exists m, _validateBounds r = Throw m.
Proof.
  unfold _validateBounds.
  repeat match goal with |- context [if ?b then _ else _] => destruct b end;
    eauto.
Qed.

Lemma construct_ok (buf : js_string) (p e : Z) :
  0 <= p /\ p <= e /\ e <= js_length buf ->
  construct buf p e = Ok (mkTextRange buf p e).
Proof.
  intros H. apply validateBounds_ok in H. unfold construct. rewrite H. reflexivity.
Qed.

Lemma construct_throw_iff (buf : js_string) (p e : Z) :
  (exists m, construct buf p e = Throw m) <->
  (p < 0 \/ e < 0 \/ e < p \/ p > js_length buf \/ e > js_length buf).
Proof.
  unfold construct.
  destruct (validateBounds_cases (mkTextRange buf p e)) as [Hok | [m Hm]].
  - rewrite Hok. split; [intros [m Hm]; discriminate |].
    intros Hbad. apply validateBounds_ok in Hok. lia.
  - rewrite Hm. split; [intros _ | intros _; eauto].
    destruct (Z_le_gt_dec 0 p); [| lia].
    destruct (Z_le_gt_dec p e); [| lia].
    destruct (Z_le_gt_dec e (js_length buf)); [| lia].
    assert (Hv : _validateBounds (mkTextRange buf p e) = Ok tt)
      by (apply validateBounds_ok; lia).
    congruence.
Qed.

Lemma construct_inv (buf : js_string) (p e : Z) (r : TextRange) :
  construct buf p e = Ok r ->
  r = mkTextRange buf p e /\ 0 <= p /\ p <= e /\ e <= js_length buf.
Proof.
  unfold construct.
  destruct (validateBounds_cases (mkTextRange buf p e)) as [Hok | [m Hm]].
  - rewrite Hok. intros Heq; inversion Heq; subst.
    split; [reflexivity | apply validateBounds_ok; exact Hok].
  - rewrite Hm. discriminate.
Qed.

Lemma js_substring_in_range (buf : js_string) (p e : Z) :
  0 <= p -> p <= e -> e <= js_length buf ->
  js_substring buf p e = slice buf p e.
Proof.
  intros H1 H2 H3. unfold js_substring, slice.
  replace (Z.min (Z.max p 0) (js_length buf)) with p by lia.
  replace (Z.min (Z.max e 0) (js_length buf)) with e by lia.
  replace (Z.min p e) with p by lia.
  replace (Z.max p e) with e by lia.
  reflexivity.
Qed.

(** C1: construction through [fromStringRange] (or [getNewRange] on a range
    over the same buffer) throws exactly when [pos < 0], [end < 0],
    [end < pos], [pos > length] or [end > length]; for any
    [0 <= pos <= end <= length] it succeeds, and [toString()] of the result
    is [buffer.substring(pos, end)], which is the exact slice
    [buffer[pos..end)]. *)
Theorem fromStringRange_throws_iff_out_of_bounds (buf : js_string) (p e : Z) :
  ((exists m, fromStringRange buf p e = Throw m) <->
     (p < 0 \/ e < 0 \/ e < p \/ p > js_length buf \/ e > js_length buf)) /\
  (forall r0 : TextRange, buffer r0 = buf ->
     ((exists m, getNewRange r0 p e = Throw m) <->
        (p < 0 \/ e < 0 \/ e < p \/ p > js_length buf \/ e > js_length buf))) /\
  (0 <= p <= e /\ e <= js_length buf ->
     exists r, fromStringRange buf p e = Ok r /\
       (forall r0 : TextRange, buffer r0 = buf -> getNewRange r0 p e = Ok r) /\
       toString r = js_substring buf p e /\
       toString r = slice buf p e).
Proof.
  split; [| split].
  - apply construct_throw_iff.
  - intros r0 <-. apply construct_throw_iff.
  - intros H. exists (mkTextRange buf p e).
    split; [apply construct_ok; lia |].
    split; [intros r0 <-; apply construct_ok; lia |].
    split; [reflexivity |].
    unfold toString; simpl. apply js_substring_in_range; lia.
Qed.

(** C7: every range that [fromString], [fromStringRange] or [getNewRange]
    returns satisfies [0 <= pos <= end <= length(buffer)] and holds exactly
    the buffer and bounds it was given (the record is never updated
    afterwards: every operation is a function of it); [length] is
    [end - pos] and [isEmpty()] holds exactly when [pos = end]. *)
Theorem textRange_invariant :
  (forall buf r, fromString buf = Ok r -> valid r /\ buffer r = buf) /\
  (forall buf p e r, fromStringRange buf p e = Ok r ->
     valid r /\ buffer r = buf /\ pos r = p /\ end_ r = e) /\
  (forall r0 p e r, getNewRange r0 p e = Ok r ->
     valid r /\ buffer r = buffer r0 /\ pos r = p /\ end_ r = e) /\
  (forall r, length r = end_ r - pos r) /\
  (forall r, isEmpty r = true <-> pos r = end_ r).
Proof.
  unfold valid.
  split; [| split; [| split; [| split]]].
  - intros buf r H. apply construct_inv in H as [-> H]. simpl. tauto.
  - intros buf p e r H. apply construct_inv in H as [-> H]. simpl. tauto.
  - intros r0 p e r H. apply construct_inv in H as [-> H]. simpl. tauto.
  - reflexivity.
  - intros r. unfold isEmpty. apply Z.eqb_eq.
Qed.

End TextRangeFacts.

Module LocationFacts.
Import TextRange.

(** One more iteration of the [getLocation] loop processes the character at
    [currentIndex + fuel]. *)
Lemma getLocation_loop_snoc (buf : js_string) (n : nat) (cur l c : Z) :
  getLocation_loop buf (S n) cur l c =
  let r := getLocation_loop buf n cur l c in
  let ch := js_char_at buf (cur + Z.of_nat n) in
  if decide (ch = Some char_CR) then r
  else if decide (ch = Some char_LF) then mkLocation (line r + 1) 1
  else mkLocation (line r) (column r + 1).
Proof.
  revert cur l c. induction n as [| n IH]; intros cur l c.
  - cbn [getLocation_loop]. rewrite Z.add_0_r. reflexivity.
  - replace (cur + Z.of_nat (S n)) with ((cur + 1) + Z.of_nat n) by lia.
    change (getLocation_loop buf (S (S n)) cur l c) with
      (if decide (js_char_at buf cur = Some char_CR)
       then getLocation_loop buf (S n) (cur + 1) l c
       else if decide (js_char_at buf cur = Some char_LF)
       then getLocation_loop buf (S n) (cur + 1) (l + 1) 1
       else getLocation_loop buf (S n) (cur + 1) l (c + 1)).
    change (getLocation_loop buf (S n) cur l c) with
      (if decide (js_char_at buf cur = Some char_CR)
       then getLocation_loop buf n (cur + 1) l c
       else if decide (js_char_at buf cur = Some char_LF)
       then getLocation_loop buf n (cur + 1) (l + 1) 1
       else getLocation_loop buf n (cur + 1) l (c + 1)).
    destruct (decide (js_char_at buf cur = Some char_CR));
      [| destruct (decide (js_char_at buf cur = Some char_LF))];
      rewrite IH; reflexivity.
Qed.

Lemma firstn_S_snoc (A : Type) (s : list A) (n : nat) (x : A) :
  nth_error s n = Some x -> firstn (S n) s = firstn n s ++ [x].
Proof.
  revert n. induction s as [| y s IH]; intros n H; [destruct n; discriminate |].
  destruct n as [| n]; simpl in *.
  - now inversion H.
  - rewrite (IH n H). reflexivity.
Qed.

Lemma last_line_snoc (s : js_string) (x : ascii) :
  last_line (s ++ [x]) =
  if bool_decide (x = char_LF) then [] else last_line s ++ [x].
Proof.
  unfold last_line. rewrite rev_app_distr. simpl.
  destruct (bool_decide (x = char_LF)); reflexivity.
Qed.

Lemma count_LF_snoc (s : js_string) (x : ascii) :
  count_LF (s ++ [x]) = (count_LF s + if bool_decide (x = char_LF) then 1 else 0)%nat.
Proof.
  unfold count_LF. rewrite List.filter_app, List.length_app. simpl.
  destruct (bool_decide (x = char_LF)); reflexivity.
Qed.

Lemma count_non_CR_snoc (s : js_string) (x : ascii) :
  count_non_CR (s ++ [x]) =
  (count_non_CR s + if bool_decide (x = char_CR) then 0 else 1)%nat.
Proof.
  unfold count_non_CR. rewrite List.filter_app, List.length_app. simpl.
  destruct (bool_decide (x = char_CR)); reflexivity.
Qed.

Lemma CR_neq_LF : char_CR <> char_LF.
Proof. discriminate. Qed.

Lemma getLocation_loop_prefix (buf : js_string) (n : nat) :
  (n <= List.length buf)%nat ->
  getLocation_loop buf n 0 1 1 =
  mkLocation (1 + Z.of_nat (count_LF (firstn n buf)))
             (1 + Z.of_nat (count_non_CR (last_line (firstn n buf)))).
Proof.
  induction n as [| n IH]; intros Hn; [reflexivity |].
  destruct (nth_error buf n) as [x |] eqn:Hx;
    [| apply nth_error_None in Hx; lia].
  rewrite getLocation_loop_snoc, IH by lia.
  rewrite (firstn_S_snoc _ _ _ _ Hx).
  rewrite last_line_snoc, count_LF_snoc.
  assert (Hch : js_char_at buf (0 + Z.of_nat n) = Some x).
  { unfold js_char_at. rewrite Z.add_0_l, Nat2Z.id.
    destruct (Z.of_nat n <? 0) eqn:E; [lia | exact Hx]. }
  cbv zeta. rewrite Hch. cbn [line column].
  destruct (decide (Some x = Some char_CR)) as [HCR | HCR].
  - inversion HCR; subst x.
    rewrite (bool_decide_eq_false_2 (char_CR = char_LF)) by exact CR_neq_LF.
    rewrite count_non_CR_snoc, bool_decide_eq_true_2 by reflexivity.
    f_equal; lia.
  - destruct (decide (Some x = Some char_LF)) as [HLF | HLF].
    + inversion HLF; subst x.
      rewrite bool_decide_eq_true_2 by reflexivity.
      simpl. f_equal; lia.
    + rewrite (bool_decide_eq_false_2 (x = char_LF)) by congruence.
      rewrite count_non_CR_snoc, (bool_decide_eq_false_2 (x = char_CR)) by congruence.
      f_equal; lia.
Qed.

(** C5: for [0 <= index <= length(buffer)], [getLocation(index)] is 1-based:
    the line is one plus the number of ['\n'] in [buffer[0..index)], and the
    column is one plus the number of characters other than ['\r'] after the
    last ['\n'] of that prefix; so a ['\n'] resets the column to 1, a ['\r']
    moves neither line nor column, and every other character (a tab too)
    moves the column by one. *)
Theorem getLocation_line_column (r : TextRange) (index : Z)
    (Hlo : 0 <= index) (Hhi : index <= js_length (buffer r)) :
  getLocation r index =
  mkLocation (1 + Z.of_nat (count_LF (firstn (Z.to_nat index) (buffer r))))
             (1 + Z.of_nat (count_non_CR (last_line (firstn (Z.to_nat index) (buffer r))))).
Proof.
  unfold getLocation.
  destruct (index <? 0) eqn:E1; [lia |].
  destruct (js_length (buffer r) <? index) eqn:E2; [lia |].
  simpl. apply getLocation_loop_prefix. unfold js_length in Hhi. lia.
Qed.

(** Witness for C5: in ["a\r\n\tb"], offset 5 is line 2, column 3. *)
Lemma getLocation_line_column_witness :
  getLocation (mkTextRange ["a"%char; char_CR; char_LF; char_TAB; "b"%char] 0 5) 5
  = mkLocation 2 3.
Proof.
  rewrite (getLocation_line_column
             (mkTextRange ["a"%char; char_CR; char_LF; char_TAB; "b"%char] 0 5) 5);
    [reflexivity | lia | unfold js_length; simpl; lia].
Defined.

(** C3 (as stated, refuted): the range [fromString("")] is over an empty
    buffer, and [getLocation(0)] on it is [{line: 1, column: 1}], not the
    sentinel [{line: 0, column: 0}]. *)
Lemma getLocation_empty_buffer_counterexample :
  fromString [] = Ok (mkTextRange [] 0 0) /\
  getLocation (mkTextRange [] 0 0) 0 = mkLocation 1 1 /\
  ~ (forall r : TextRange, buffer r = [] -> getLocation r 0 = mkLocation 0 0).
Proof.
  split; [reflexivity |]. split; [reflexivity |].
  intros H. specialize (H (mkTextRange [] 0 0) eq_refl).
  vm_compute in H. discriminate H.
Qed.

(** C3 (amended): [getLocation(index)] is the sentinel [{line: 0, column: 0}]
    for every index outside [[0, length(buffer)]]; on an empty buffer the
    index 0 is in range and its location is [{line: 1, column: 1}]. *)
Theorem getLocation_out_of_range_sentinel (r : TextRange) :
  (forall index : Z, index < 0 \/ index > js_length (buffer r) ->
     getLocation r index = mkLocation 0 0) /\
  (buffer r = [] -> getLocation r 0 = mkLocation 1 1).
Proof.
  split.
  - intros index Hout. unfold getLocation.
    destruct Hout as [H | H].
    + apply Z.ltb_lt in H. rewrite H. reflexivity.
    + assert (H' : (js_length (buffer r) <? index) = true) by (apply Z.ltb_lt; lia).
      rewrite H', orb_true_r. reflexivity.
  - intros Hb. unfold getLocation. rewrite Hb. reflexivity.
Qed.

End LocationFacts.

Module NodeFacts.
Import Nodes.

Section PlainTextFacts.

Context (TokenSequence : Type) (TokenSequence_toString : TokenSequence -> js_string).
Context (DocDeclarationReference : Type).

Lemma newlineCharacterRegExp_test_iff (t : js_string) :
  _newlineCharacterRegExp_test t = true <-> In char_LF t.
Proof.
  unfold _newlineCharacterRegExp_test. rewrite existsb_exists. split.
  - intros [x [Hin Hx]]. apply bool_decide_eq_true in Hx. subst x. exact Hin.
  - intros Hin. exists char_LF. split; [exact Hin | apply bool_decide_eq_true; reflexivity].
Qed.

Lemma DocPlainText_literal_ok (t : js_string) :
  ~ In char_LF t ->
  DocPlainText_new (TokenSequence := TokenSequence) (PlainTextLiteral t)
  = Ok (mkDocPlainText (Some t) None).
Proof.
  intros Hnl. simpl.
  destruct (_newlineCharacterRegExp_test t) eqn:E; [| reflexivity].
  apply newlineCharacterRegExp_test_iff in E. contradiction.
Qed.

(** C4: literal construction of a [DocPlainText] throws exactly when the
    text contains ['\n']; otherwise it succeeds and the [text] getter
    returns the supplied string (leaving the node as it is). *)
Theorem DocPlainText_literal_rejects_newline (t : js_string) :
  ((exists m, DocPlainText_new (TokenSequence := TokenSequence) (PlainTextLiteral t)
              = Throw m) <-> In char_LF t) /\
  (~ In char_LF t ->
     exists n, DocPlainText_new (PlainTextLiteral t) = Ok n /\
               DocPlainText_text TokenSequence_toString n = Ok (t, n)).
Proof.
  split.
  - simpl. destruct (_newlineCharacterRegExp_test t) eqn:E.
    + apply newlineCharacterRegExp_test_iff in E. split; eauto.
    + split; [intros [m Hm]; discriminate |].
      intros Hin. apply newlineCharacterRegExp_test_iff in Hin. congruence.
  - intros Hnl. exists (mkDocPlainText (Some t) None).
    split; [apply DocPlainText_literal_ok; exact Hnl | reflexivity].
Qed.

(** C10: only the line feed is rejected: a text with a ['\r'] and no
    ['\n'] is accepted, and the [text] getter returns it unchanged,
    carriage return included. *)
Theorem DocPlainText_literal_accepts_CR (t : js_string)
    (HCR : In char_CR t) (HLF : ~ In char_LF t) :
  exists n, DocPlainText_new (PlainTextLiteral t) = Ok n /\
            DocPlainText_text TokenSequence_toString n = Ok (t, n).
Proof.
  exists (mkDocPlainText (Some t) None).
  split; [apply DocPlainText_literal_ok; exact HLF | reflexivity].
Qed.

(** C6: a node built from a parsed excerpt starts with an empty cache; the
    first [text] access returns the excerpt's [toString()] and stores it,
    and from then on [text] returns the cached value with the node
    unchanged. [textExcerpt] is the backing token sequence for a parsed
    node, and [undefined] for a literal one. *)
Theorem DocPlainText_parsed_text_cached (ts : TokenSequence) :
  (exists n, DocPlainText_new (PlainTextParsed ts) = Ok n /\
     _text n = None /\
     DocPlainText_textExcerpt n = Some ts /\
     exists n1, DocPlainText_text TokenSequence_toString n
                = Ok (TokenSequence_toString ts, n1) /\
       _text n1 = Some (TokenSequence_toString ts) /\
       DocPlainText_textExcerpt n1 = Some ts /\
       DocPlainText_text TokenSequence_toString n1
       = Ok (TokenSequence_toString ts, n1)) /\
  (forall (t : js_string) (n : DocPlainText TokenSequence),
     DocPlainText_new (PlainTextLiteral t) = Ok n ->
     DocPlainText_textExcerpt n = None).
Proof.
  split.
  - eexists. split; [reflexivity |].
    split; [reflexivity |]. split; [reflexivity |].
    eexists. split; [reflexivity |].
    split; [reflexivity |]. split; reflexivity.
  - intros t n. simpl. destruct (_newlineCharacterRegExp_test t); [discriminate |].
    intros H. inversion H. reflexivity.
Qed.

End PlainTextFacts.

(** Witness for C10: ["a\r"] is accepted and read back as it is. *)
Lemma DocPlainText_literal_accepts_CR_witness :
  exists n, DocPlainText_new (PlainTextLiteral ["a"%char; char_CR]) = Ok n /\
    DocPlainText_text (fun u : unit => []) n = Ok (["a"%char; char_CR], n).
Proof.
  apply (DocPlainText_literal_accepts_CR unit (fun _ => [])).
  - simpl. right. left. reflexivity.
  - simpl. intros [H | [H | []]]; discriminate H.
Defined.

Section ChildNodeFacts.

Context (TokenSequence : Type) (DocDeclarationReference : Type).

(** C8: the [getChildNodes] sequence keeps holes: a [DocMemberSymbol] lists
    [[leftBracket, spacingAfterLeftBracket, symbolReference, rightBracket]]
    in that order, the spacing entry [undefined] when no spacing was
    parsed and the bracket entries [undefined] for a constructed node; a
    literal [DocPlainText] has the single entry [undefined]. *)
Theorem getChildNodes_keeps_holes :
  (forall (l : TokenSequence) (sp : option TokenSequence)
          (s : DocDeclarationReference) (r : TokenSequence),
     getChildNodes (DocMemberSymbol_onGetChildNodes
                      (DocMemberSymbol_new (MemberSymbolParsed l sp s r))) =
     [Some (NodeExcerpt (mkDocExcerpt EK_DocMemberSymbol_LeftBracket l));
      option_map (fun ts => NodeExcerpt (mkDocExcerpt EK_Spacing ts)) sp;
      Some (NodeDeclarationReference s);
      Some (NodeExcerpt (mkDocExcerpt EK_DocMemberSymbol_RightBracket r))]) /\
  (forall s : DocDeclarationReference,
     getChildNodes (DocMemberSymbol_onGetChildNodes
                      (DocMemberSymbol_new (MemberSymbolLiteral (TokenSequence := TokenSequence) s))) =
     [None; None; Some (NodeDeclarationReference s); None]) /\
  (forall (t : js_string) (n : DocPlainText TokenSequence),
     DocPlainText_new (PlainTextLiteral t) = Ok n ->
     getChildNodes (DocPlainText_onGetChildNodes DocDeclarationReference n)
     = [None]).
Proof.
  split; [| split].
  - intros l sp s r. destruct sp; reflexivity.
  - reflexivity.
  - intros t n. simpl. destruct (_newlineCharacterRegExp_test t); [discriminate |].
    intros H. inversion H. reflexivity.
Qed.

End ChildNodeFacts.

End NodeFacts.

Module ParamCollectionFacts.
Import ParamCollection.

Section CollectionFacts.

Context (DocParamBlock : Type) (parameterName : DocParamBlock -> js_string).

Lemma tryGetBlockByName_index (c : DocParamCollection DocParamBlock) (name : js_string) :
  tryGetBlockByName c name = index_of c !! name.
Proof. unfold tryGetBlockByName, index_of. destruct (_blocksByName c); reflexivity. Qed.

Lemma find_snoc (f : DocParamBlock -> bool) (l : list DocParamBlock) (x : DocParamBlock) :
  List.find f (l ++ [x]) =
  match List.find f l with Some y => Some y | None => if f x then Some x else None end.
Proof.
  induction l as [| y l IH]; simpl; [reflexivity |].
  destruct (f y); [reflexivity | exact IH].
Qed.

Lemma find_first (f : DocParamBlock -> bool) (pre post : list DocParamBlock) (b : DocParamBlock) :
  Forall (fun x => f x = false) pre -> f b = true ->
  List.find f (pre ++ b :: post) = Some b.
Proof.
  induction 1 as [| y pre Hy _ IH]; intros Hb; simpl.
  - rewrite Hb. reflexivity.
  - rewrite Hy. apply IH. exact Hb.
Qed.

Lemma add_all_snoc (c : DocParamCollection DocParamBlock) (bs : list DocParamBlock) (b : DocParamBlock) :
  add_all parameterName c (bs ++ [b]) = add parameterName (add_all parameterName c bs) b.
Proof. unfold add_all. rewrite fold_left_app. reflexivity. Qed.

Lemma index_of_add (c : DocParamCollection DocParamBlock) (b : DocParamBlock) (name : js_string) :
  index_of (add parameterName c b) !! name =
  match index_of c !! name with
  | Some y => Some y
  | None => if bool_decide (parameterName b = name) then Some b else None
  end.
Proof.
  unfold add. cbn [index_of _blocksByName]. fold (index_of c).
  destruct (index_of c !! parameterName b) as [y |] eqn:Hk.
  - case_bool_decide as Hn.
    + subst name. rewrite Hk. reflexivity.
    + destruct (index_of c !! name); reflexivity.
  - case_bool_decide as Hn.
    + subst name. rewrite Hk. apply lookup_insert_eq.
    + rewrite lookup_insert_ne by exact Hn.
      destruct (index_of c !! name); reflexivity.
Qed.

Lemma add_all_new (bs : list DocParamBlock) :
  _blocks (add_all parameterName new bs) = bs /\
  forall name, index_of (add_all parameterName new bs) !! name = List.find (fun b => bool_decide (parameterName b = name)) bs.
Proof.
  induction bs as [| bs b IH] using rev_ind.
  - split; [reflexivity | intros name; reflexivity].
  - destruct IH as [Hbl Hix]. rewrite add_all_snoc. split.
    + simpl. rewrite Hbl. reflexivity.
    + intros name. rewrite index_of_add, find_snoc, Hix. reflexivity.
Qed.

(** C2: after any sequence of [add] calls on a new collection, the name
    lookup returns the first added block with that name (a block preceded
    by no block of the same name is the one found), [count] is the number
    of blocks added, duplicates included, and both [blocks] and the
    iterator give the blocks in insertion order. *)
Theorem tryGetBlockByName_first_added (bs : list DocParamBlock) :
  (forall name, tryGetBlockByName (add_all parameterName new bs) name
                = List.find (fun b => bool_decide (parameterName b = name)) bs) /\
  (forall pre b post, bs = pre ++ b :: post ->
     Forall (fun x => parameterName x <> parameterName b) pre ->
     tryGetBlockByName (add_all parameterName new bs) (parameterName b) = Some b) /\
  count (add_all parameterName new bs) = List.length bs /\
  blocks (add_all parameterName new bs) = bs /\
  iterate (add_all parameterName new bs) = bs.
Proof.
  destruct (add_all_new bs) as [Hbl Hix].
  assert (Hget : forall name, tryGetBlockByName (add_all parameterName new bs) name
                              = List.find (fun b => bool_decide (parameterName b = name)) bs).
  { intros name. rewrite tryGetBlockByName_index. apply Hix. }
  split; [exact Hget |]. split.
  - intros pre b post -> Hpre. rewrite Hget. apply find_first.
    + eapply Forall_impl; [exact Hpre |]. intros x Hx. apply bool_decide_eq_false_2. exact Hx.
    + apply bool_decide_eq_true_2. reflexivity.
  - unfold count, blocks, iterate. rewrite Hbl. tauto.
Qed.

(** C9: [clear()] empties the list and drops the name index: the result is
    the new collection, so [count] is 0, [blocks] and iteration are empty,
    every name lookup is [undefined], and later [add] calls act as on a
    new collection. *)
Theorem clear_resets_collection (c : DocParamCollection DocParamBlock) :
  clear c = new /\
  count (clear c) = 0%nat /\
  blocks (clear c) = [] /\
  iterate (clear c) = [] /\
  (forall name, tryGetBlockByName (clear c) name = None) /\
  (forall bs, add_all parameterName (clear c) bs = add_all parameterName new bs).
Proof.
  repeat split; reflexivity.
Qed.

End CollectionFacts.

(** The scenario of the spec: blocks named ["x"], ["y"], ["x"] (told apart
    by a number). *)
Example param_collection_x_y_x :
  let name (b : js_string * nat) := fst b in
  let x1 : js_string * nat := (["x"%char], 1%nat) in
  let y2 : js_string * nat := (["y"%char], 2%nat) in
  let x3 : js_string * nat := (["x"%char], 3%nat) in
  let c := add_all name new [x1; y2; x3] in
  (tryGetBlockByName c (fst x1) = Some x1) /\
  (count c = 3%nat) /\
  (blocks c = [x1; y2; x3]).
Proof. vm_compute. repeat split. Qed.

End ParamCollectionFacts.

Module TextRangeExtras.
Import TextRange.
Import TextRangeFacts.
Import LocationFacts.

Lemma valid_nat (r : TextRange) :
  valid r ->
  exists P E : nat, pos r = Z.of_nat P /\ end_ r = Z.of_nat E /\
    (P <= E)%nat /\ (E <= List.length (buffer r))%nat.
Proof.
  unfold valid, js_length. intros (H1 & H2 & H3).
  exists (Z.to_nat (pos r)), (Z.to_nat (end_ r)). lia.
Qed.

Lemma toString_valid (r : TextRange) :
  valid r ->
  toString r = firstn (Z.to_nat (end_ r) - Z.to_nat (pos r)) (skipn (Z.to_nat (pos r)) (buffer r)).
Proof.
  intros Hv. unfold toString.
  destruct Hv as (H1 & H2 & H3).
  rewrite js_substring_in_range by lia. unfold slice. f_equal. lia.
Qed.

(** [getDebugDump(l, r)] on a valid range is the text before [pos], then
    [l], then the range's text, then [r], then the text from [end]; with
    empty delimiters it gives the whole buffer back. *)
Theorem getDebugDump_splits_buffer (r : TextRange) (l d : js_string) (Hv : valid r) :
  getDebugDump r l d =
    firstn (Z.to_nat (pos r)) (buffer r) ++ l ++ toString r ++ d ++
    skipn (Z.to_nat (end_ r)) (buffer r) /\
  getDebugDump r [] [] = buffer r.
Proof.
  assert (Hd : forall l d, getDebugDump r l d =
    firstn (Z.to_nat (pos r)) (buffer r) ++ l ++ toString r ++ d ++
    skipn (Z.to_nat (end_ r)) (buffer r)).
  { intros l' d'. pose proof Hv as (H1 & H2 & H3). unfold getDebugDump.
    rewrite (js_substring_in_range (buffer r) 0 (pos r)) by lia.
    rewrite (js_substring_in_range (buffer r) (end_ r) (js_length (buffer r))) by lia.
    fold (toString r). unfold slice.
    rewrite Z.sub_0_r, List.skipn_O.
    rewrite (List.firstn_all2 (n := Z.to_nat (js_length (buffer r) - end_ r)))
      by (rewrite List.length_skipn; unfold js_length in *; lia).
    reflexivity. }
  split; [apply Hd |]. rewrite Hd. simpl.
  rewrite (toString_valid r Hv).
  destruct (valid_nat r Hv) as (P & E & -> & -> & HPE & HE).
  rewrite !Nat2Z.id.
  assert (Hs : skipn P (buffer r) = firstn (E - P) (skipn P (buffer r)) ++ skipn E (buffer r)).
  { rewrite <- (List.firstn_skipn (E - P) (skipn P (buffer r))) at 1.
    rewrite List.skipn_skipn. replace (E - P + P)%nat with E by lia. reflexivity. }
  rewrite <- Hs. apply List.firstn_skipn.
Qed.

Lemma getDebugDump_splits_buffer_witness :
  getDebugDump (mkTextRange ["1"%char; "2"%char; "3"%char] 1 2) ["["%char] ["]"%char]
  = ["1"%char; "["%char; "2"%char; "]"%char; "3"%char].
Proof.
  apply (getDebugDump_splits_buffer (mkTextRange ["1"%char; "2"%char; "3"%char] 1 2)
           ["["%char] ["]"%char]).
  unfold valid, js_length; simpl; lia.
Defined.

(** [fromString(buffer)] never throws: it covers the whole buffer, its text
    is the buffer, its length is the buffer's, and it is empty exactly when
    the buffer is. *)
Theorem fromString_whole_buffer (buf : js_string) :
  fromString buf = Ok (mkTextRange buf 0 (js_length buf)) /\
  toString (mkTextRange buf 0 (js_length buf)) = buf /\
  length (mkTextRange buf 0 (js_length buf)) = js_length buf /\
  (isEmpty (mkTextRange buf 0 (js_length buf)) = true <-> buf = []).
Proof.
  assert (Hl : 0 <= js_length buf) by (unfold js_length; lia).
  split; [apply construct_ok; lia |].
  split.
  - unfold toString; simpl. rewrite js_substring_in_range by lia.
    unfold slice. rewrite Z.sub_0_r, List.skipn_O. apply List.firstn_all2.
    unfold js_length. lia.
  - split; [unfold length; simpl; lia |].
    unfold isEmpty. cbn [pos end_]. rewrite Z.eqb_eq. unfold js_length.
    destruct buf as [| c buf]; simpl; split; intros H; try lia; try reflexivity; discriminate.
Qed.

(** The static [TextRange.empty] is constructed without throwing: an empty
    range over the empty buffer, with empty text. *)
Theorem empty_range_valid :
  empty = Ok (mkTextRange [] 0 0) /\
  valid (mkTextRange [] 0 0) /\
  isEmpty (mkTextRange [] 0 0) = true /\
  toString (mkTextRange [] 0 0) = [].
Proof.
  split; [reflexivity |]. split; [unfold valid, js_length; simpl; lia |].
  split; reflexivity.
Qed.

(** On a valid range, [isEmpty()], [length = 0] and an empty [toString()]
    agree, and the text has [length] characters. *)
Theorem isEmpty_iff_text_empty (r : TextRange) (Hv : valid r) :
  (isEmpty r = true <-> length r = 0) /\
  (isEmpty r = true <-> toString r = []) /\
  js_length (toString r) = length r.
Proof.
  pose proof (toString_valid r Hv) as Ht.
  destruct (valid_nat r Hv) as (P & E & HP & HE & HPE & HEl).
  assert (Hlen : js_length (toString r) = length r).
  { rewrite Ht, HP, HE, !Nat2Z.id. unfold js_length, length.
    rewrite List.length_firstn, List.length_skipn, HP, HE. lia. }
  unfold isEmpty. rewrite Z.eqb_eq.
  split; [unfold length; lia |]. split; [| exact Hlen].
  split.
  - intros Heq. destruct (toString r) eqn:Es; [reflexivity |].
    unfold js_length, length in Hlen. simpl in Hlen. lia.
  - intros Hnil. rewrite Hnil in Hlen. unfold js_length, length in Hlen. simpl in Hlen. lia.
Qed.

Lemma isEmpty_iff_text_empty_witness :
  isEmpty (mkTextRange ["a"%char] 1 1) = true <-> toString (mkTextRange ["a"%char] 1 1) = [].
Proof.
  apply (isEmpty_iff_text_empty (mkTextRange ["a"%char] 1 1)).
  unfold valid, js_length; simpl; lia.
Defined.

(** A sub-range taken with [getNewRange] inside a valid range has as text
    the matching slice of the parent's text. *)
Theorem getNewRange_nested_text (r r' : TextRange) (p e : Z)
    (Hv : valid r) (Hlo : pos r <= p) (Hhi : e <= end_ r)
    (Hnew : getNewRange r p e = Ok r') :
  toString r' = slice (toString r) (p - pos r) (e - pos r).
Proof.
  apply construct_inv in Hnew as [-> (H1 & H2 & H3)].
  unfold toString at 1; simpl. rewrite js_substring_in_range by lia.
  rewrite (toString_valid r Hv).
  destruct (valid_nat r Hv) as (P & E & HP & HE & HPE & HEl).
  rewrite HP, HE in *. rewrite !Nat2Z.id.
  unfold slice.
  replace (Z.to_nat (e - p)) with (Z.to_nat e - Z.to_nat p)%nat by lia.
  replace (Z.to_nat (e - Z.of_nat P - (p - Z.of_nat P))) with (Z.to_nat e - Z.to_nat p)%nat by lia.
  replace (Z.to_nat (p - Z.of_nat P)) with (Z.to_nat p - P)%nat by lia.
  rewrite List.skipn_firstn_comm, List.skipn_skipn.
  replace (Z.to_nat p - P + P)%nat with (Z.to_nat p) by lia.
  rewrite List.firstn_firstn. f_equal. lia.
Qed.

Lemma getNewRange_nested_text_witness :
  toString (mkTextRange ["a"%char; "b"%char; "c"%char; "d"%char] 2 3) = ["c"%char].
Proof.
  rewrite (getNewRange_nested_text (mkTextRange ["a"%char; "b"%char; "c"%char; "d"%char] 1 4)
             (mkTextRange ["a"%char; "b"%char; "c"%char; "d"%char] 2 3) 2 3).
  - reflexivity.
  - unfold valid, js_length; simpl; lia.
  - simpl; lia.
  - simpl; lia.
  - reflexivity.
Defined.

End TextRangeExtras.

Module LocationExtras.
Import TextRange.
Import LocationFacts.

Lemma getLocation_in_range (r : TextRange) (index : Z) :
  0 <= index -> index <= js_length (buffer r) ->
  getLocation r index =
  mkLocation (1 + Z.of_nat (count_LF (firstn (Z.to_nat index) (buffer r))))
             (1 + Z.of_nat (count_non_CR (last_line (firstn (Z.to_nat index) (buffer r))))).
Proof.
  intros Hlo Hhi. unfold getLocation.
  destruct (index <? 0) eqn:E1; [lia |].
  destruct (js_length (buffer r) <? index) eqn:E2; [lia |].
  simpl. apply getLocation_loop_prefix. unfold js_length in Hhi. lia.
Qed.

(** The sentinel [{line: 0, column: 0}] is returned exactly for the indexes
    outside [[0, length(buffer)]]: every index inside has a line and a
    column of at least 1. *)
Theorem getLocation_sentinel_iff_out_of_range (r : TextRange) (index : Z) :
  (getLocation r index = mkLocation 0 0 <-> index < 0 \/ index > js_length (buffer r)) /\
  (0 <= index <= js_length (buffer r) ->
     1 <= line (getLocation r index) /\ 1 <= column (getLocation r index)).
Proof.
  assert (Hin : 0 <= index <= js_length (buffer r) ->
     1 <= line (getLocation r index) /\ 1 <= column (getLocation r index)).
  { intros [H1 H2]. rewrite getLocation_in_range by assumption. simpl. lia. }
  split; [| exact Hin].
  split.
  - intros H. destruct (Z_lt_le_dec index 0) as [Hneg | Hnn]; [left; exact Hneg |].
    destruct (Z_le_gt_dec index (js_length (buffer r))) as [Hle | Hgt]; [| right; exact Hgt].
    destruct (Hin (conj Hnn Hle)) as [Hl _]. rewrite H in Hl. simpl in Hl. lia.
  - intros Hout. unfold getLocation.
    destruct Hout as [H | H].
    + apply Z.ltb_lt in H. rewrite H. reflexivity.
    + assert (H' : (js_length (buffer r) <? index) = true) by (apply Z.ltb_lt; lia).
      rewrite H', orb_true_r. reflexivity.
Qed.

Lemma count_LF_app (s t : js_string) : count_LF (s ++ t) = (count_LF s + count_LF t)%nat.
Proof. unfold count_LF. rewrite List.filter_app, List.length_app. reflexivity. Qed.

(** Moving the index forward never decreases the line number. *)
Theorem getLocation_line_monotone (r : TextRange) (i j : Z)
    (Hi : 0 <= i) (Hij : i <= j) (Hj : j <= js_length (buffer r)) :
  line (getLocation r i) <= line (getLocation r j).
Proof.
  rewrite !getLocation_in_range by lia. simpl.
  rewrite <- (List.firstn_skipn (Z.to_nat i) (firstn (Z.to_nat j) (buffer r))).
  rewrite List.firstn_firstn.
  replace (Nat.min (Z.to_nat i) (Z.to_nat j)) with (Z.to_nat i) by lia.
  rewrite count_LF_app. lia.
Qed.

Lemma getLocation_line_monotone_witness :
  line (getLocation (mkTextRange ["a"%char; char_LF; "b"%char] 0 3) 1)
  <= line (getLocation (mkTextRange ["a"%char; char_LF; "b"%char] 0 3) 3).
Proof.
  apply getLocation_line_monotone; [lia | lia | unfold js_length; simpl; lia].
Defined.

End LocationExtras.

Module ParamCollectionExtras.
Import ParamCollection.
Import ParamCollectionFacts.

Section Extras.

Context (DocParamBlock : Type) (parameterName : DocParamBlock -> js_string).

Lemma find_some_named (name : js_string) (bs : list DocParamBlock) (b : DocParamBlock) :
  List.find (fun x => bool_decide (parameterName x = name)) bs = Some b ->
  parameterName b = name /\ In b bs.
Proof.
  intros H. apply find_some in H as [Hin Hb].
  apply bool_decide_eq_true in Hb. split; assumption.
Qed.

Lemma find_none_named (name : js_string) (bs : list DocParamBlock) (b : DocParamBlock) :
  In b bs -> parameterName b = name ->
  exists b', List.find (fun x => bool_decide (parameterName x = name)) bs = Some b'.
Proof.
  intros Hin Hn.
  destruct (List.find (fun x => bool_decide (parameterName x = name)) bs) as [b' |] eqn:E;
    [eauto |].
  exfalso. pose proof (find_none _ _ E b Hin) as Hf. simpl in Hf.
  rewrite bool_decide_eq_true_2 in Hf by exact Hn. discriminate.
Qed.

(** After any sequence of [add] calls on a new collection, a name lookup
    answers only with an added block of that very name, and it answers for
    every name some added block has; the names never added give
    [undefined]. *)
Theorem tryGetBlockByName_sound_complete (bs : list DocParamBlock) (name : js_string) :
  (forall b, tryGetBlockByName (add_all parameterName new bs) name = Some b ->
     parameterName b = name /\ In b bs) /\
  (tryGetBlockByName (add_all parameterName new bs) name = None <->
     forall b, In b bs -> parameterName b <> name).
Proof.
  assert (Hget : tryGetBlockByName (add_all parameterName new bs) name
                = List.find (fun x => bool_decide (parameterName x = name)) bs).
  { rewrite tryGetBlockByName_index. apply (proj2 (add_all_new DocParamBlock parameterName bs)). }
  rewrite Hget. split.
  - apply find_some_named.
  - split.
    + intros Hnone b Hin Hn. destruct (find_none_named name bs b Hin Hn) as [b' Hb'].
      congruence.
    + intros Hall.
      destruct (List.find (fun x => bool_decide (parameterName x = name)) bs) as [b |] eqn:E;
        [| reflexivity].
      destruct (find_some_named name bs b E) as [Hn Hin].
      exfalso. exact (Hall b Hin Hn).
Qed.

(** [add] on any collection appends the block, adds one to [count], keeps
    every name the lookup already answers for, and makes an unanswered name
    answer with the new block when it is the block's name. *)
Theorem add_keeps_earlier_lookups (c : DocParamCollection DocParamBlock)
    (b : DocParamBlock) (name : js_string) :
  blocks (add parameterName c b) = blocks c ++ [b] /\
  count (add parameterName c b) = S (count c) /\
  tryGetBlockByName (add parameterName c b) name =
    match tryGetBlockByName c name with
    | Some y => Some y
    | None => if bool_decide (parameterName b = name) then Some b else None
    end.
Proof.
  split; [reflexivity |]. split.
  - unfold count, add. simpl. rewrite List.length_app. simpl. lia.
  - rewrite !tryGetBlockByName_index. apply index_of_add.
Qed.

End Extras.

End ParamCollectionExtras.

Module ParamCollectionStoreFacts.
Import ParamCollectionStore.

Section StoreFacts.

Context (DocParamBlock : Type) (parameterName : DocParamBlock -> js_string).

Lemma add_all_array (st : gmap nat (list DocParamBlock)) (c : DocParamCollection DocParamBlock)
    (bs : list DocParamBlock) :
  blocks (snd (add_all parameterName st c bs)) = blocks c /\
  read (fst (add_all parameterName st c bs)) (blocks c) = read st (blocks c) ++ bs.
Proof.
  revert st c. induction bs as [| b bs IH]; intros st c.
  - simpl. rewrite app_nil_r. split; reflexivity.
  - simpl. destruct (IH (<[_blocks c := read st (_blocks c) ++ [b]]> st)
                        (mkDocParamCollection (_blocks c)
                           (Some (let m := match _blocksByName c with
                                            | None => ∅
                                            | Some m => m
                                            end in
                                  match m !! parameterName b with
                                  | Some _ => m
                                  | None => <[parameterName b := b]> m
                                  end)))) as [Hb Hr].
    unfold blocks in *. simpl in *. split; [exact Hb |].
    rewrite Hr. unfold read at 1. rewrite lookup_insert_eq.
    rewrite <- app_assoc. reflexivity.
Qed.

(** The array the [blocks] getter returned stays the collection's own:
    later [add] calls show up in it, and [clear()] empties it in place, so
    an array obtained before [clear()] holds exactly the blocks added after
    it. *)
Theorem blocks_array_is_shared (st : gmap nat (list DocParamBlock))
    (c : DocParamCollection DocParamBlock) (bs : list DocParamBlock) :
  read (fst (add_all parameterName st c bs)) (blocks c) = read st (blocks c) ++ bs /\
  blocks (snd (add_all parameterName st c bs)) = blocks c /\
  let '(st1, c1) := clear st c in
  read (fst (add_all parameterName st1 c1 bs)) (blocks c) = bs /\
  blocks (snd (add_all parameterName st1 c1 bs)) = blocks c /\
  (forall name, tryGetBlockByName c1 name = None).
Proof.
  destruct (add_all_array st c bs) as [Hb Hr].
  split; [exact Hr |]. split; [exact Hb |].
  simpl.
  destruct (add_all_array (<[_blocks c := []]> st) (mkDocParamCollection (_blocks c) None) bs)
    as [Hb1 Hr1].
  unfold blocks in *. simpl in *.
  split; [| split; [exact Hb1 | reflexivity]].
  rewrite Hr1. unfold read at 1. rewrite lookup_insert_eq. reflexivity.
Qed.

(** A new collection gets an array no other one uses: it is empty, and the
    arrays already in the store are left as they are. *)
Theorem new_allocates_fresh_array (st : gmap nat (list DocParamBlock)) :
  st !! blocks (snd (new st)) = None /\
  read (fst (new st)) (blocks (snd (new st))) = [] /\
  (forall a, a <> blocks (snd (new st)) -> fst (new st) !! a = st !! a).
Proof.
  unfold new, blocks, read. simpl.
  split; [| split].
  - apply not_elem_of_dom. apply is_fresh.
  - rewrite lookup_insert_eq. reflexivity.
  - intros a Ha. rewrite lookup_insert_ne by congruence. reflexivity.
Qed.

End StoreFacts.

End ParamCollectionStoreFacts.

Module NodeExtras.
Import Nodes.

Section Extras.

Context (TokenSequence : Type) (TokenSequence_toString : TokenSequence -> js_string).
Context (DocDeclarationReference : Type).

(** The [text] getter of any node the constructor returns never throws (the
    [this._textExcerpt!] dereference is never reached on an absent
    excerpt), and after one access the node is left as it is by every
    further access, which returns the same text. *)
Theorem DocPlainText_text_total_and_stable
    (parameters : DocPlainTextParameters TokenSequence) (n : DocPlainText TokenSequence)
    (Hnew : DocPlainText_new parameters = Ok n) :
  exists t n', DocPlainText_text TokenSequence_toString n = Ok (t, n') /\
    DocPlainText_text TokenSequence_toString n' = Ok (t, n') /\
    DocPlainText_textExcerpt n' = DocPlainText_textExcerpt n.
Proof.
  destruct parameters as [t | ts]; simpl in Hnew.
  - destruct (_newlineCharacterRegExp_test t); [discriminate |].
    inversion Hnew; subst n. exists t, (mkDocPlainText (Some t) None).
    split; [reflexivity | split; reflexivity].
  - inversion Hnew; subst n. eexists; eexists.
    split; [reflexivity | split; reflexivity].
Qed.



End Extras.

Lemma DocPlainText_text_total_and_stable_witness :
  exists t n',
    DocPlainText_text (fun _ : unit => [])
      (mkDocPlainText None (Some (mkDocExcerpt EK_PlainText tt))) = Ok (t, n') /\
    DocPlainText_text (fun _ : unit => []) n' = Ok (t, n') /\
    DocPlainText_textExcerpt n'
    = DocPlainText_textExcerpt (mkDocPlainText None (Some (mkDocExcerpt EK_PlainText tt))).
Proof.
  apply (DocPlainText_text_total_and_stable unit (fun _ : unit => []) (PlainTextParsed tt)).
  reflexivity.
Defined.

End NodeExtras.

Module HtmlViewFacts.
Import HtmlView.

Lemma js_or_nonempty (a : option js_string) (b : js_string) :
  b <> [] -> js_or a b <> [].
Proof. intros Hb. destruct a as [[| c s] |]; simpl; [exact Hb | discriminate | exact Hb]. Qed.

(** The text the view renders for a link is never empty: a non-empty
    [linkText] is used as it is; otherwise a URL link shows its URL, and a
    code link shows the identifier of its last member reference when that
    is non-empty, and ["???"] when the link has no code destination or no
    member reference. *)
Theorem renderLinkText_nonempty (t : LinkTagView) :
  renderLinkText t <> [] /\
  (forall s, linkText t = Some s -> s <> [] -> renderLinkText t = s) /\
  (js_truthy (linkText t) = false -> js_truthy (urlDestination t) = true ->
     Some (renderLinkText t) = urlDestination t) /\
  (js_truthy (linkText t) = false -> js_truthy (urlDestination t) = false ->
     (codeDestination t = None \/ codeDestination t = Some []) ->
     renderLinkText t = question_marks).
Proof.
  destruct t as [lt ud cd]. unfold renderLinkText; cbn [linkText urlDestination codeDestination].
  split; [| split; [| split]].
  - destruct (js_truthy ud) eqn:Hu.
    + apply js_or_nonempty. destruct ud as [[| c u] |]; simpl in *; congruence.
    + apply js_or_nonempty, js_or_nonempty. unfold question_marks. discriminate.
  - intros s -> Hs. destruct s as [| c s]; [congruence |].
    destruct (js_truthy ud); reflexivity.
  - intros Hl Hu. rewrite Hu.
    destruct lt as [[| c s] |]; simpl in Hl; try discriminate;
      destruct ud as [[| c u] |]; simpl in Hu; try discriminate; reflexivity.
  - intros Hl Hu Hcd. rewrite Hu.
    destruct lt as [[| c s] |]; simpl in Hl; try discriminate;
      destruct Hcd as [-> | ->]; reflexivity.
Qed.

Lemma renderLinkText_nonempty_witness :
  renderLinkText (mkLinkTagView None None (Some [])) = question_marks.
Proof.
  apply (proj2 (proj2 (proj2 (renderLinkText_nonempty (mkLinkTagView None None (Some []))))));
    [reflexivity | reflexivity | right; reflexivity].
Defined.

Lemma exampleHeadings_loop_map (total k start : nat) :
  exampleHeadings_loop total k start =
  map (fun i => if (1 <? total)%nat
                then example_word ++ [" "%char] ++ js_nat_to_string i
                else example_word) (seq start k).
Proof.
  revert start. induction k as [| k IH]; intros start; [reflexivity |].
  simpl. rewrite IH. reflexivity.
Qed.

(** One example block gets the heading "Example"; with [n > 1] blocks the
    headings are "Example 1", ..., "Example n" in order. *)
Theorem exampleHeadings_numbering (n : nat) :
  exampleHeadings 1 = [example_word] /\
  ((1 < n)%nat ->
     exampleHeadings n =
     map (fun i => example_word ++ [" "%char] ++ js_nat_to_string i) (seq 1 n)) /\
  List.length (exampleHeadings n) = n.
Proof.
  split; [reflexivity |]. split.
  - intros Hn. unfold exampleHeadings. rewrite exampleHeadings_loop_map.
    apply map_ext. intros i. destruct (Nat.ltb_spec 1 n); [reflexivity | lia].
  - unfold exampleHeadings. rewrite exampleHeadings_loop_map, List.length_map, List.length_seq.
    reflexivity.
Qed.

Lemma exampleHeadings_numbering_witness :
  exampleHeadings 12 =
  map (fun i => example_word ++ [" "%char] ++ js_nat_to_string i) (seq 1 12) /\
  nth_error (exampleHeadings 12) 11 =
  Some (example_word ++ [" "%char; "1"%char; "2"%char]).
Proof.
  split.
  - apply (proj1 (proj2 (exampleHeadings_numbering 12))). lia.
  - reflexivity.
Defined.

Lemma fold_left_snoc_map (A B : Type) (f : A -> B) (l : list A) (acc : list B) :
  fold_left (fun rows b => rows ++ [f b]) l acc = acc ++ map f l.
Proof.
  revert acc. induction l as [| x l IH]; intros acc; simpl.
  - rewrite app_nil_r. reflexivity.
  - rewrite IH, <- app_assoc. reflexivity.
Qed.

(** For a collection built by [add] calls, the "Parameters" table is left
    out when no block was added, and otherwise has one row per block, in
    insertion order, duplicate names included (unlike the name lookup). *)
Theorem renderParamRows_all_blocks (DocParamBlock Container : Type)
    (parameterName : DocParamBlock -> js_string) (paramContent : DocParamBlock -> Container)
    (bs : list DocParamBlock) :
  renderParamRows DocParamBlock parameterName Container paramContent
    (ParamCollection.add_all parameterName ParamCollection.new bs) =
  match bs with
  | [] => None
  | _ => Some (map (fun b => (parameterName b, paramContent b)) bs)
  end.
Proof.
  destruct (ParamCollectionFacts.add_all_new DocParamBlock parameterName bs) as [Hbl _].
  unfold renderParamRows, ParamCollection.count, ParamCollection.blocks.
  rewrite Hbl, fold_left_snoc_map. simpl.
  destruct bs as [| b bs]; reflexivity.
Qed.

End HtmlViewFacts.
